(** * The bump allocator of the C SDK template

    A shallow embedding of the allocator in
    [src/sdk-templates/cpp/src/main.c]: the static 64KB [heap], the cursor
    [heap_ptr] and the three entry points [alloc], [dealloc] and
    [reset_heap].

    The module is built for WebAssembly ([emcc], wasm32), so [size_t] is an
    unsigned 32-bit integer.  Values of that type are integers of [Z] in
    [0, 2^32) and every arithmetic operation of the source is written with
    its wrap-around. *)

From Stdlib Require Import ZArith List Lia Bool.
From Stdlib.Init Require Import Byte.
From Stdlib.Strings Require Byte.
From Stdlib.Arith Require Import Factorial.
Import ListNotations.

Local Open Scope Z_scope.

(** ** [size_t] on wasm32 *)

Module SizeT.

Definition bits : Z := 32.

Definition modulus : Z := 2 ^ bits.

(** Reduction of an integer to the representable range; also the
    conversion of a (possibly negative) [int] to [size_t]. *)
Definition wrap (z : Z) : Z := z mod modulus.

Definition in_range (z : Z) : Prop := 0 <= z < modulus.

Definition in_rangeb (z : Z) : bool := (0 <=? z) && (z <? modulus).

(** [a + b] on [size_t]. *)
Definition add (a b : Z) : Z := wrap (a + b).

(** [a & b] on [size_t]. *)
Definition and (a b : Z) : Z := Z.land a b.

(** [~i] on [int], then converted to [size_t] by the usual arithmetic
    conversions. *)
Definition of_int_not (i : Z) : Z := wrap (Z.lnot i).

End SizeT.

(** ** The allocator state *)

(** [sizeof(heap)] for [static uint8_t heap[65536]]. *)
Definition sizeof_heap : Z := 65536.

(** The two statics of the translation unit: the arena bytes and the
    cursor. *)
Record state : Type := mkState {
  heap : list byte;
  heap_ptr : Z
}.

(** Static initialisation: a zeroed arena and [heap_ptr = 0]. *)
Definition init_state : state :=
  mkState (repeat x00 (Z.to_nat sizeof_heap)) 0.

(** A [void*] as [alloc] produces it: [NULL], or [&heap[off]], the
    address [off] bytes past the arena base.  [heap] is a static object,
    so no [&heap[off]] is [NULL]. *)
Inductive pointer : Type :=
| NULL : pointer
| heap_at (off : Z) : pointer.

(** ** The three entry points *)

(** [(size + 7) & ~7], as [size_t] arithmetic. *)
Definition padded (size : Z) : Z :=
  SizeT.and (SizeT.add size 7) (SizeT.of_int_not 7).

(** [void* alloc(size_t size)] *)
Definition alloc (st : state) (size : Z) : pointer * state :=
  if SizeT.add (heap_ptr st) size >? sizeof_heap then
    (NULL, st)
  else
    let ptr := heap_at (heap_ptr st) in
    (ptr, mkState (heap st) (SizeT.add (heap_ptr st) (padded size))).

(** [void dealloc(void* ptr, size_t size)] *)
Definition dealloc (st : state) (ptr : pointer) (size : Z) : state := st.

(** [void reset_heap(void)] *)
Definition reset_heap (st : state) : state :=
  mkState (heap st) 0.

(** ** Sequences of calls *)

Inductive call : Type :=
| Alloc (size : Z)
| Dealloc (ptr : pointer) (size : Z)
| Reset.

(** A call is well typed when its [size_t] arguments are values of
    [size_t]. *)
Definition call_ok (c : call) : Prop :=
  match c with
  | Alloc size => SizeT.in_range size
  | Dealloc _ size => SizeT.in_range size
  | Reset => True
  end.

Definition call_okb (c : call) : bool :=
  match c with
  | Alloc size => SizeT.in_rangeb size
  | Dealloc _ size => SizeT.in_rangeb size
  | Reset => true
  end.

Definition exec (st : state) (c : call) : state :=
  match c with
  | Alloc size => snd (alloc st size)
  | Dealloc ptr size => dealloc st ptr size
  | Reset => reset_heap st
  end.

Definition run (st : state) (cs : list call) : state :=
  fold_left exec cs st.

Definition moves_cursor (c : call) : bool :=
  match c with
  | Alloc _ | Reset => true
  | Dealloc _ _ => false
  end.

(** Successive [alloc] calls: the returned pointers, each with the size
    it was requested with, and the final state. *)
Fixpoint allocs (st : state) (sizes : list Z) : list (pointer * Z) * state :=
  match sizes with
  | [] => ([], st)
  | size :: rest =>
      let '(p, st1) := alloc st size in
      let '(ps, st2) := allocs st1 rest in
      ((p, size) :: ps, st2)
  end.

(** Successive [dealloc] calls. *)
Definition deallocs (st : state) (args : list (pointer * Z)) : state :=
  fold_left (fun s a => dealloc s (fst a) (snd a)) args st.

(** ** Regions *)

(** The mathematical rounding of the spec: the least multiple of 8 that
    is at least [size]. *)
Definition align8 (size : Z) : Z := 8 * ((size + 7) / 8).

Arguments align8 : simpl never.

(** The byte range [off, off + len) of the arena, by offset from the
    arena base. *)
Definition region : Type := (Z * Z)%type.

Definition region_of (r : pointer * Z) : option region :=
  match fst r with
  | NULL => None
  | heap_at off => Some (off, snd r)
  end.

(** Two ranges are disjoint when no byte offset lies in both. *)
Definition disjoint (r1 r2 : region) : Prop :=
  forall b, ~ (fst r1 <= b < fst r1 + snd r1 /\ fst r2 <= b < fst r2 + snd r2).

Definition within_heap (r : region) : Prop :=
  0 <= fst r /\ fst r + snd r <= sizeof_heap.

Definition aligned8 (off : Z) : Prop := off mod 8 = 0.

(** The state invariant: the cursor is a multiple of 8 inside the arena. *)
Definition cursor_ok (st : state) : Prop :=
  0 <= heap_ptr st <= sizeof_heap /\ aligned8 (heap_ptr st).

(** The regions handed out by a sequence of [alloc] calls, in call
    order; a [NULL] return hands out nothing. *)
Fixpoint regions (rs : list (pointer * Z)) : list region :=
  match rs with
  | [] => []
  | r :: rest =>
      match region_of r with
      | Some x => x :: regions rest
      | None => regions rest
      end
  end.

(** Every call of the sequence returned non-null. *)
Definition all_succeed (rs : list (pointer * Z)) : Prop :=
  Forall (fun r => fst r <> NULL) rs.

Fixpoint pairwise_disjoint (l : list region) : Prop :=
  match l with
  | [] => True
  | r :: rest => Forall (disjoint r) rest /\ pairwise_disjoint rest
  end.

(** Requests no larger than the arena: for these no addition of [alloc]
    can wrap. *)
Definition small (size : Z) : Prop := 0 <= size <= sizeof_heap.

(** ** Outcomes of the exported functions

    The exported functions compute on [int] and [int64_t] and read the
    memory their pointer arguments refer to.  Signed overflow and a read
    outside the object a pointer refers to have no defined behaviour in
    C: such a run ends in [Undefined].  Loops are run on a fuel that the
    entry point derives from its argument; [OutOfFuel] is shown below
    never to be the outcome of an entry point. *)

Inductive outcome (A : Type) : Type :=
| Ret (a : A)
| Undefined
| OutOfFuel.

Arguments Ret {A} a.
Arguments Undefined {A}.
Arguments OutOfFuel {A}.

Definition bind {A B : Type} (m : outcome A) (k : A -> outcome B) : outcome B :=
  match m with
  | Ret a => k a
  | Undefined => Undefined
  | OutOfFuel => OutOfFuel
  end.

Notation "x <- m ;; k" := (bind m (fun x => k))
  (at level 61, m at next level, right associativity).

(** ** [int]: 32-bit two's complement *)

Module Int.

Definition min : Z := - 2 ^ 31.

Definition max : Z := 2 ^ 31 - 1.

Definition in_range (z : Z) : Prop := min <= z <= max.

Definition in_rangeb (z : Z) : bool := (min <=? z) && (z <=? max).

(** The value of an arithmetic expression of type [int]: defined when
    the mathematical result is representable. *)
Definition checked (z : Z) : outcome Z :=
  if in_rangeb z then Ret z else Undefined.

Definition add (a b : Z) : outcome Z := checked (a + b).

Definition sub (a b : Z) : outcome Z := checked (a - b).

Definition mul (a b : Z) : outcome Z := checked (a * b).

End Int.

(** ** [int64_t]: 64-bit two's complement *)

Module Int64.

Definition min : Z := - 2 ^ 63.

Definition max : Z := 2 ^ 63 - 1.

Definition in_range (z : Z) : Prop := min <= z <= max.

Definition in_rangeb (z : Z) : bool := (min <=? z) && (z <=? max).

Definition checked (z : Z) : outcome Z :=
  if in_rangeb z then Ret z else Undefined.

Definition add (a b : Z) : outcome Z := checked (a + b).

Definition mul (a b : Z) : outcome Z := checked (a * b).

End Int64.

(** ** The exported functions *)

(** [int add(int a, int b)] *)
Definition add (a b : Z) : outcome Z := Int.add a b.

(** [int subtract(int a, int b)] *)
Definition subtract (a b : Z) : outcome Z := Int.sub a b.

(** [int multiply(int a, int b)] *)
Definition multiply (a b : Z) : outcome Z := Int.mul a b.

(** [int get_answer(void)] *)
Definition get_answer : Z := 42.

(** The loop of [factorial], entered at its condition [i <= n]:
    [result *= i] in [int64_t], then [i++] in [int]. *)
Fixpoint factorial_loop (fuel : nat) (n i result : Z) : outcome Z :=
  if i <=? n then
    match fuel with
    | O => OutOfFuel
    | S fuel' =>
        result' <- Int64.mul result i ;;
        i' <- Int.add i 1 ;;
        factorial_loop fuel' n i' result'
    end
  else Ret result.

(** [int64_t factorial(int n)] *)
Definition factorial (n : Z) : outcome Z :=
  if n <=? 1 then Ret 1
  else factorial_loop (Z.to_nat n) n 2 1.

(** The loop of [fibonacci], entered at its condition [i <= n]:
    [tmp = a + b; a = b; b = tmp] in [int64_t], then [i++]. *)
Fixpoint fibonacci_loop (fuel : nat) (n i a b : Z) : outcome Z :=
  if i <=? n then
    match fuel with
    | O => OutOfFuel
    | S fuel' =>
        tmp <- Int64.add a b ;;
        i' <- Int.add i 1 ;;
        fibonacci_loop fuel' n i' b tmp
    end
  else Ret b.

(** [int64_t fibonacci(int n)] *)
Definition fibonacci (n : Z) : outcome Z :=
  if n <=? 0 then Ret 0
  else if n =? 1 then Ret 1
  else fibonacci_loop (Z.to_nat n) n 2 0 1.

(** [p[i]] for a pointer [p] to the first element of an object with the
    elements [obj]: defined inside the object only. *)
Definition load {A : Type} (obj : list A) (i : Z) : outcome A :=
  if i <? 0 then Undefined
  else match nth_error obj (Z.to_nat i) with
       | Some x => Ret x
       | None => Undefined
       end.

(** The loop of [sum_array], entered at its condition [i < len]:
    [sum += arr[i]], then [i++]. *)
Fixpoint sum_array_loop (fuel : nat) (arr : list Z) (len i sum : Z) : outcome Z :=
  if i <? len then
    match fuel with
    | O => OutOfFuel
    | S fuel' =>
        x <- load arr i ;;
        sum' <- Int.add sum x ;;
        i' <- Int.add i 1 ;;
        sum_array_loop fuel' arr len i' sum'
    end
  else Ret sum.

(** [int sum_array(int* arr, int len)], on the array [arr] points to. *)
Definition sum_array (arr : list Z) (len : Z) : outcome Z :=
  sum_array_loop (Z.to_nat len) arr len 0 0.

(** The loop of [string_length], entered at its condition
    [str[len] != '\0']; the body is [len++]. *)
Fixpoint string_length_loop (fuel : nat) (str : list byte) (len : Z) : outcome Z :=
  c <- load str len ;;
  if negb (Byte.eqb c x00) then
    match fuel with
    | O => OutOfFuel
    | S fuel' =>
        len' <- Int.add len 1 ;;
        string_length_loop fuel' str len'
    end
  else Ret len.

(** [int string_length(const char* str)], on the bytes of the object
    [str] points into, from [str] to the end of the object. *)
Definition string_length (str : list byte) : outcome Z :=
  string_length_loop (length str) str 0.

(** ** Reference functions *)

(** The Fibonacci numbers by their recurrence. *)
Fixpoint fib (n : nat) : Z :=
  match n with
  | O => 0
  | S m => match m with
           | O => 1
           | S k => fib m + fib k
           end
  end.

(** Two consecutive Fibonacci numbers, computed in linear time. *)
Fixpoint fib_pair (n : nat) : Z * Z :=
  match n with
  | O => (0, 1)
  | S m => let '(a, b) := fib_pair m in (b, a + b)
  end.

(** [n!] in [Z]. *)
Fixpoint factZ (n : nat) : Z :=
  match n with
  | O => 1
  | S m => Z.of_nat (S m) * factZ m
  end.

Definition sumZ (l : list Z) : Z := fold_right Z.add 0 l.

(** Adding the elements of [l] to [acc] from the left never leaves the
    range of [int]. *)
Fixpoint partial_sums_ok (acc : Z) (l : list Z) : Prop :=
  match l with
  | [] => True
  | x :: rest => Int.in_range (acc + x) /\ partial_sums_ok (acc + x) rest
  end.

Fixpoint partial_sums_okb (acc : Z) (l : list Z) : bool :=
  match l with
  | [] => true
  | x :: rest => Int.in_rangeb (acc + x) && partial_sums_okb (acc + x) rest
  end.

(** The sum of the sizes the allocator charges for the requests. *)
Definition charged (sizes : list Z) : Z := sumZ (map align8 sizes).

(** The pointers returned by the [alloc] calls of a sequence of calls,
    in call order. *)
Fixpoint run_ptrs (st : state) (cs : list call) : list pointer :=
  match cs with
  | [] => []
  | c :: rest =>
      match c with
      | Alloc size => fst (alloc st size) :: run_ptrs (exec st c) rest
      | Dealloc _ _ | Reset => run_ptrs (exec st c) rest
      end
  end.

(** ** Arithmetic of [size_t] *)

Lemma modulus_eq : SizeT.modulus = 4294967296.
Proof. reflexivity. Qed.

(** Linear arithmetic with the two constants of the program unfolded. *)
Ltac size_lia :=
  pose proof modulus_eq;
  unfold SizeT.in_range, sizeof_heap in *;
  lia.

Lemma wrap_range (z : Z) : SizeT.in_range (SizeT.wrap z).
Proof.
  unfold SizeT.in_range, SizeT.wrap. rewrite modulus_eq.
  apply Z.mod_pos_bound. lia.
Qed.

Lemma wrap_small (z : Z) : SizeT.in_range z -> SizeT.wrap z = z.
Proof.
  unfold SizeT.in_range, SizeT.wrap. intros H. now apply Z.mod_small.
Qed.

(** The value of a sum that overflows once. *)
Lemma wrap_over (z : Z) :
  SizeT.modulus <= z < 2 * SizeT.modulus -> SizeT.wrap z = z - SizeT.modulus.
Proof.
  unfold SizeT.wrap. rewrite modulus_eq. intros H.
  symmetry. apply (Z.mod_unique z 4294967296 1); lia.
Qed.

Lemma in_rangeb_spec (z : Z) : SizeT.in_rangeb z = true <-> SizeT.in_range z.
Proof.
  unfold SizeT.in_rangeb, SizeT.in_range.
  rewrite andb_true_iff, Z.leb_le, Z.ltb_lt. tauto.
Qed.

(** Masking with [~7] clears the three low bits. *)
Lemma mask_low3 (x : Z) :
  SizeT.in_range x -> SizeT.and x (SizeT.of_int_not 7) = 8 * (x / 8).
Proof.
  intros Hx. unfold SizeT.and, SizeT.of_int_not, SizeT.wrap, SizeT.modulus, SizeT.bits.
  rewrite <- (Z.land_ones (Z.lnot 7) 32) by lia.
  rewrite (Z.land_comm (Z.lnot 7)), Z.land_assoc.
  rewrite (Z.land_ones x 32) by lia.
  fold SizeT.bits. fold SizeT.modulus. fold (SizeT.wrap x).
  rewrite (wrap_small x Hx).
  rewrite <- Z.ldiff_land.
  change 7 with (Z.ones 3).
  rewrite Z.ldiff_ones_r by lia.
  rewrite Z.shiftl_mul_pow2, Z.shiftr_div_pow2 by lia.
  change (2 ^ 3) with 8. lia.
Qed.

Lemma align8_bounds (size : Z) : size <= align8 size < size + 8.
Proof.
  unfold align8.
  pose proof (Z.div_mod (size + 7) 8 ltac:(lia)).
  pose proof (Z.mod_pos_bound (size + 7) 8 ltac:(lia)). lia.
Qed.

(** Below the last 7 values of [size_t] the source's bit trick is the
    rounding of the spec. *)
Lemma padded_align8 (size : Z) :
  0 <= size -> size + 7 < SizeT.modulus -> padded size = align8 size.
Proof.
  intros H0 H1. unfold padded.
  assert (Hr : SizeT.in_range (size + 7)) by (unfold SizeT.in_range; lia).
  unfold SizeT.add. rewrite (wrap_small _ Hr).
  now rewrite mask_low3.
Qed.

(** On the last 7 values of [size_t] the addition [size + 7] wraps and
    the padded size is 0. *)
Lemma padded_wraps (size : Z) :
  SizeT.modulus - 7 <= size < SizeT.modulus -> padded size = 0.
Proof.
  intros H. unfold padded, SizeT.add.
  rewrite wrap_over by size_lia.
  rewrite mask_low3 by size_lia.
  rewrite Z.div_small; size_lia.
Qed.

Lemma aligned8_mul (q : Z) : aligned8 (8 * q).
Proof. unfold aligned8. rewrite Z.mul_comm. apply Z.mod_mul. lia. Qed.

Lemma aligned8_inv (x : Z) : aligned8 x -> x = 8 * (x / 8).
Proof.
  unfold aligned8. intros H.
  pose proof (Z.div_mod x 8 ltac:(lia)). lia.
Qed.

(** The arena size and the cursor are multiples of 8, so a request fits
    exactly when its rounded size fits. *)
Lemma align8_fits (c size : Z) :
  aligned8 c -> c + size <= sizeof_heap <-> c + align8 size <= sizeof_heap.
Proof.
  intros Hc. apply aligned8_inv in Hc.
  pose proof (align8_bounds size) as Hb.
  unfold align8, sizeof_heap in *. lia.
Qed.

(** ** [alloc], case by case *)

Lemma alloc_null_iff (st : state) (size : Z) :
  fst (alloc st size) = NULL <-> SizeT.add (heap_ptr st) size > sizeof_heap.
Proof.
  unfold alloc. rewrite Z.gtb_ltb.
  destruct (Z.ltb_spec sizeof_heap (SizeT.add (heap_ptr st) size)); cbn.
  - split; [lia | reflexivity].
  - split; [discriminate | lia].
Qed.

Lemma alloc_null_state (st : state) (size : Z) :
  fst (alloc st size) = NULL -> alloc st size = (NULL, st).
Proof.
  unfold alloc.
  destruct (SizeT.add (heap_ptr st) size >? sizeof_heap); cbn;
    [reflexivity | discriminate].
Qed.

Lemma alloc_some (st : state) (size : Z) :
  fst (alloc st size) <> NULL ->
  alloc st size =
    (heap_at (heap_ptr st),
     mkState (heap st) (SizeT.add (heap_ptr st) (padded size))).
Proof.
  unfold alloc.
  destruct (SizeT.add (heap_ptr st) size >? sizeof_heap); cbn;
    [congruence | reflexivity].
Qed.

(** [alloc] never touches the arena bytes. *)
Lemma alloc_heap (st : state) (size : Z) :
  heap (snd (alloc st size)) = heap st.
Proof.
  unfold alloc.
  now destruct (SizeT.add (heap_ptr st) size >? sizeof_heap).
Qed.

(** The cursor after a successful call, over the whole of [size_t].  The
    three cases are: no wrap-around; [cursor + size] wraps and so does
    [size + 7]; [cursor + size] and [cursor + padded] both wrap. *)
Lemma next_cursor_cases (c size : Z) :
  0 <= c <= sizeof_heap -> aligned8 c -> SizeT.in_range size ->
  SizeT.add c size <= sizeof_heap ->
  (c + size <= sizeof_heap /\
   SizeT.add c (padded size) = c + align8 size)
  \/ (SizeT.modulus - 7 <= size /\ 8 <= c /\
      SizeT.add c (padded size) = c)
  \/ (SizeT.modulus <= c + size /\ size + 7 < SizeT.modulus /\
      SizeT.add c (padded size) = c + align8 size - SizeT.modulus).
Proof.
  intros Hc Ha Hs Hfit.
  pose proof (aligned8_inv c Ha) as Hc8.
  pose proof (align8_bounds size) as Hb.
  unfold SizeT.add in *.
  destruct (Z_lt_ge_dec (c + size) SizeT.modulus) as [Hlt | Hge].
  - rewrite wrap_small in Hfit by size_lia.
    left. split; [exact Hfit |].
    rewrite padded_align8 by size_lia.
    apply wrap_small.
    apply (align8_fits c size Ha) in Hfit. size_lia.
  - rewrite wrap_over in Hfit by size_lia.
    right. destruct (Z_lt_ge_dec (size + 7) SizeT.modulus) as [Hp | Hp].
    + right. split; [lia | split; [exact Hp |]].
      rewrite padded_align8 by size_lia.
      apply wrap_over. unfold align8 in *. size_lia.
    + left. split; [lia | split; [size_lia |]].
      rewrite padded_wraps by size_lia.
      rewrite Z.add_0_r. apply wrap_small. size_lia.
Qed.

(** [alloc] keeps the cursor a multiple of 8 inside the arena, for every
    [size_t] argument. *)
Lemma alloc_cursor_ok (st : state) (size : Z) :
  cursor_ok st -> SizeT.in_range size -> cursor_ok (snd (alloc st size)).
Proof.
  intros [Hc Ha] Hs. unfold alloc. rewrite Z.gtb_ltb.
  destruct (Z.ltb_spec sizeof_heap (SizeT.add (heap_ptr st) size)) as [Hf | Hf];
    cbn [snd]; [now split |].
  pose proof (aligned8_inv _ Ha) as Hc8.
  pose proof (align8_bounds size) as Hb.
  unfold cursor_ok; cbn [heap_ptr].
  destruct (next_cursor_cases _ _ Hc Ha Hs Hf) as [[H1 ->] | [[H1 [H2 ->]] | [H1 [H2 ->]]]].
  - apply (align8_fits _ _ Ha) in H1. split; [size_lia |].
    rewrite Hc8. unfold align8. rewrite <- Z.mul_add_distr_l. apply aligned8_mul.
  - now split.
  - unfold SizeT.add in Hf. rewrite wrap_over in Hf by size_lia.
    unfold align8 in *. split; [size_lia |].
    replace (heap_ptr st + 8 * ((size + 7) / 8) - SizeT.modulus)
      with (8 * (heap_ptr st / 8 + (size + 7) / 8 - 536870912)) by size_lia.
    apply aligned8_mul.
Qed.

(** For requests no larger than the arena nothing wraps, and [alloc] is
    the allocator of the spec. *)
Lemma alloc_small (st : state) (size : Z) :
  cursor_ok st -> 0 <= size <= sizeof_heap ->
  alloc st size =
    if heap_ptr st + align8 size >? sizeof_heap then (NULL, st)
    else (heap_at (heap_ptr st),
          mkState (heap st) (heap_ptr st + align8 size)).
Proof.
  intros [Hc Ha] Hs. unfold alloc.
  pose proof (align8_fits _ size Ha) as Hfit.
  pose proof (align8_bounds size) as Hb.
  assert (Hadd : SizeT.add (heap_ptr st) size = heap_ptr st + size)
    by (apply wrap_small; size_lia).
  rewrite Hadd, !Z.gtb_ltb.
  destruct (Z.ltb_spec sizeof_heap (heap_ptr st + size)) as [Hf | Hf];
    destruct (Z.ltb_spec sizeof_heap (heap_ptr st + align8 size)) as [Hg | Hg];
    try lia; [reflexivity |].
  rewrite padded_align8 by size_lia.
  unfold SizeT.add. rewrite wrap_small by size_lia. reflexivity.
Qed.

(** ** Sequences *)

Lemma call_okb_spec (c : call) : call_okb c = true <-> call_ok c.
Proof.
  destruct c as [size | ptr size |]; cbn;
    [apply in_rangeb_spec | apply in_rangeb_spec | tauto].
Qed.

Lemma calls_okb_sound (cs : list call) :
  forallb call_okb cs = true -> Forall call_ok cs.
Proof.
  rewrite forallb_forall, Forall_forall.
  intros H c Hc. apply call_okb_spec. now apply H.
Qed.

Lemma exec_cursor_ok (st : state) (c : call) :
  cursor_ok st -> call_ok c -> cursor_ok (exec st c).
Proof.
  intros Hst Hc. destruct c as [size | ptr size |]; cbn in *.
  - now apply alloc_cursor_ok.
  - exact Hst.
  - unfold cursor_ok, aligned8, sizeof_heap; cbn. split; [lia | reflexivity].
Qed.

Lemma run_cursor_ok (cs : list call) :
  forall st, cursor_ok st -> Forall call_ok cs -> cursor_ok (run st cs).
Proof.
  induction cs as [| c cs IH]; intros st Hst Hcs; cbn.
  - exact Hst.
  - inversion Hcs as [| c' cs' Hc Hrest]; subst.
    apply IH; [now apply exec_cursor_ok | exact Hrest].
Qed.

Lemma init_cursor_ok : cursor_ok init_state.
Proof.
  unfold cursor_ok, aligned8, sizeof_heap; cbn [heap_ptr init_state].
  split; [lia | reflexivity].
Qed.

(** Calls to [dealloc] can be dropped from any sequence. *)
Lemma run_without_dealloc (cs : list call) :
  forall st, run st cs = run st (filter moves_cursor cs).
Proof.
  induction cs as [| c cs IH]; intros st; [reflexivity |].
  destruct c as [size | ptr size |]; cbn; apply IH.
Qed.

Lemma deallocs_id (args : list (pointer * Z)) :
  forall st, deallocs st args = st.
Proof.
  induction args as [| a args IH]; intros st; [reflexivity |].
  cbn. unfold dealloc at 2. apply IH.
Qed.

(** Successive requests, none larger than the arena, that all succeed:
    the regions lie one after the other between the cursor before and
    the cursor after, each at a multiple of 8. *)
Lemma allocs_small (sizes : list Z) :
  forall st,
    cursor_ok st -> Forall small sizes ->
    all_succeed (fst (allocs st sizes)) ->
    cursor_ok (snd (allocs st sizes))
    /\ heap_ptr st <= heap_ptr (snd (allocs st sizes))
    /\ Forall (fun r => heap_ptr st <= fst r
                        /\ fst r + snd r <= heap_ptr (snd (allocs st sizes))
                        /\ aligned8 (fst r))
              (regions (fst (allocs st sizes)))
    /\ pairwise_disjoint (regions (fst (allocs st sizes))).
Proof.
  induction sizes as [| size sizes IH]; intros st Hst Hsm Hall; cbn.
  - split; [exact Hst | split; [lia | split; [constructor | exact I]]].
  - inversion Hsm as [| x l Hsize Hrest]; subst.
    cbn in Hall.
    pose proof (alloc_small st size Hst Hsize) as Hal.
    pose proof (alloc_cursor_ok st size Hst) as Hok1.
    destruct (alloc st size) as [p st1] eqn:Ea.
    destruct (allocs st1 sizes) as [ps st2] eqn:Er.
    cbn in *.
    inversion Hall as [| y l Hp Hps]; subst. cbn in Hp.
    destruct (heap_ptr st + align8 size >? sizeof_heap);
      inversion Hal; subst; [congruence |].
    specialize (IH (mkState (heap st) (heap_ptr st + align8 size))).
    rewrite Er in IH. cbn in IH.
    destruct IH as (Hok2 & Hle & Hin & Hdis);
      [apply Hok1; unfold small in Hsize; size_lia | exact Hrest | exact Hps |].
    pose proof (align8_bounds size) as Hb.
    destruct Hst as [_ Ha]. unfold small in Hsize.
    split; [exact Hok2 | split; [lia | split; [| split; [| exact Hdis]]]].
    + constructor; cbn [fst snd].
      * split; [lia | split; [lia | exact Ha]].
      * eapply Forall_impl; [| exact Hin]. cbn beta.
        intros r (H1 & H2 & H3). split; [lia | split; assumption].
    + eapply Forall_impl; [| exact Hin]. cbn beta.
      intros r (H1 & H2 & H3). unfold disjoint; cbn [fst snd].
      intros b. lia.
Qed.

(** ** The assertions of the native test *)

Example test_alloc_distinct :
  fst (alloc init_state 100) = heap_at 0
  /\ fst (alloc (snd (alloc init_state 100)) 200) = heap_at 104.
Proof. split; reflexivity. Qed.

Example test_alloc_after_reset :
  fst (alloc (reset_heap (run init_state [Alloc 100; Alloc 200])) 100)
  = fst (alloc init_state 100).
Proof. reflexivity. Qed.

(** ** Requests no larger than the arena *)

(** Within the arena size, [alloc] fails exactly when the rounded request
    does not fit. *)
Lemma alloc_small_null_iff (st : state) (size : Z) :
  cursor_ok st -> small size ->
  fst (alloc st size) = NULL <-> heap_ptr st + align8 size > sizeof_heap.
Proof.
  intros Hst Hs. rewrite (alloc_small st size Hst Hs), Z.gtb_ltb.
  destruct (Z.ltb_spec sizeof_heap (heap_ptr st + align8 size)); cbn.
  - split; [lia | reflexivity].
  - split; [discriminate | lia].
Qed.

(** Within the arena size, a successful [alloc] returns the cursor,
    advances it by the rounded request, and the region lies in the
    arena. *)
Lemma alloc_small_region (st : state) (size : Z) :
  cursor_ok st -> small size -> fst (alloc st size) <> NULL ->
  fst (alloc st size) = heap_at (heap_ptr st)
  /\ heap_ptr (snd (alloc st size)) = heap_ptr st + align8 size
  /\ within_heap (heap_ptr st, size).
Proof.
  intros Hst Hs. rewrite (alloc_small st size Hst Hs), Z.gtb_ltb.
  pose proof (align8_bounds size) as Hb.
  destruct (Z.ltb_spec sizeof_heap (heap_ptr st + align8 size)); cbn;
    [congruence |].
  intros _. destruct Hst as [Hc _].
  unfold within_heap; cbn. repeat split; lia.
Qed.

(** Within the arena size, [alloc] never moves the cursor back. *)
Lemma alloc_small_monotone (st : state) (size : Z) :
  cursor_ok st -> small size ->
  heap_ptr st <= heap_ptr (snd (alloc st size)).
Proof.
  intros Hst Hs. rewrite (alloc_small st size Hst Hs), Z.gtb_ltb.
  pose proof (align8_bounds size) as Hb. unfold small in Hs.
  destruct (Z.ltb_spec sizeof_heap (heap_ptr st + align8 size)); cbn; lia.
Qed.

(** Every returned pointer is the cursor of a reachable state, hence a
    multiple of 8, for every [size_t] argument. *)
Lemma alloc_aligned (st : state) (size : Z) (off : Z) :
  cursor_ok st -> fst (alloc st size) = heap_at off -> aligned8 off.
Proof.
  intros [_ Ha]. unfold alloc.
  destruct (SizeT.add (heap_ptr st) size >? sizeof_heap); cbn;
    [discriminate |].
  intros [= <-]. exact Ha.
Qed.

(** ** The claims *)

(** C1.  Successive successful [alloc] calls are claimed to return
    pairwise disjoint regions at multiples of 8.  The code breaks the
    disjointness on the calls [alloc(1); alloc(2^32 - 4); alloc(1)] from
    the initial state: all three return non-null, the second check wraps
    around, the cursor stays at 8, and the second and third regions both
    start at offset 8. *)
Theorem allocs_overlap_by_wrap :
  Forall SizeT.in_range [1; 4294967292; 1]
  /\ all_succeed (fst (allocs init_state [1; 4294967292; 1]))
  /\ regions (fst (allocs init_state [1; 4294967292; 1]))
     = [(0, 1); (8, 4294967292); (8, 1)]
  /\ ~ pairwise_disjoint (regions (fst (allocs init_state [1; 4294967292; 1]))).
Proof.
  assert (E : fst (allocs init_state [1; 4294967292; 1])
              = [(heap_at 0, 1); (heap_at 8, 4294967292); (heap_at 8, 1)])
    by reflexivity.
  rewrite E. split; [| split; [| split]].
  - repeat constructor; size_lia.
  - repeat constructor; discriminate.
  - reflexivity.
  - cbn. intros [_ [Hd _]].
    inversion Hd as [| r l H8 _]; subst.
    apply (H8 8). cbn. lia.
Qed.

(** C2.  [alloc] is claimed to fail exactly when the cursor plus the
    rounded size exceeds the arena size.  At cursor 8 and size
    [2^32 - 4] the rounded size is [2^32], far beyond the arena, and the
    code returns [&heap[8]]: the sum [heap_ptr + size] wraps to 4. *)
Theorem alloc_succeeds_past_capacity :
  SizeT.in_range 4294967292
  /\ heap_ptr (run init_state [Alloc 1]) = 8
  /\ heap_ptr (run init_state [Alloc 1]) + align8 4294967292 > sizeof_heap
  /\ SizeT.add (heap_ptr (run init_state [Alloc 1])) 4294967292 = 4
  /\ fst (alloc (run init_state [Alloc 1]) 4294967292) = heap_at 8.
Proof.
  split; [size_lia |].
  split; [reflexivity |].
  split; [reflexivity |].
  split; reflexivity.
Qed.

(** C3.  A successful [alloc] is claimed to advance the cursor by the
    requested size rounded up to a multiple of 8.  At cursor 8 and size
    [2^32 - 4] the call succeeds and returns the cursor, the rounded
    size is [2^32], and the cursor is still 8 afterwards. *)
Theorem alloc_advance_wraps :
  fst (alloc (run init_state [Alloc 1]) 4294967292)
    = heap_at (heap_ptr (run init_state [Alloc 1]))
  /\ align8 4294967292 = 4294967296
  /\ padded 4294967292 = 0
  /\ heap_ptr (snd (alloc (run init_state [Alloc 1]) 4294967292)) = 8
  /\ heap_ptr (snd (alloc (run init_state [Alloc 1]) 4294967292))
     <> heap_ptr (run init_state [Alloc 1]) + align8 4294967292.
Proof.
  split; [reflexivity |].
  split; [reflexivity |].
  split; [reflexivity |].
  split; [reflexivity |].
  vm_compute. discriminate.
Qed.

(** C4.  A failed [alloc] leaves the whole allocator state, cursor and
    arena, as it was. *)
Theorem alloc_failure_keeps_state (st : state) (size : Z) :
  fst (alloc st size) = NULL ->
  snd (alloc st size) = st
  /\ heap_ptr (snd (alloc st size)) = heap_ptr st.
Proof.
  intros H. rewrite (alloc_null_state st size H). split; reflexivity.
Qed.

Lemma alloc_failure_keeps_state_witness :
  fst (alloc (run init_state [Alloc 10; Alloc 3]) 70000) = NULL
  /\ snd (alloc (run init_state [Alloc 10; Alloc 3]) 70000)
     = run init_state [Alloc 10; Alloc 3]
  /\ heap_ptr (snd (alloc (run init_state [Alloc 10; Alloc 3]) 70000)) = 24.
Proof.
  split; [reflexivity |].
  apply (alloc_failure_keeps_state (run init_state [Alloc 10; Alloc 3]) 70000).
  reflexivity.
Defined.

(** C5.  The region of a successful [alloc] is claimed to lie within the
    arena.  At cursor 8 and size [2^32 - 4] the code returns [&heap[8]]
    for a region that ends at offset [2^32 + 4]. *)
Theorem alloc_region_past_arena :
  fst (alloc (run init_state [Alloc 1]) 4294967292) = heap_at 8
  /\ region_of (fst (alloc (run init_state [Alloc 1]) 4294967292), 4294967292)
     = Some (8, 4294967292)
  /\ ~ within_heap (8, 4294967292).
Proof.
  split; [reflexivity |].
  split; [reflexivity |].
  unfold within_heap, sizeof_heap; cbn. lia.
Qed.

(** C6.  In every state reached from the initial state by well-typed
    calls to [alloc], [dealloc] and [reset_heap] the cursor is between 0
    and the arena size, and a call that changes the cursor is an [alloc]
    or a [reset_heap]. *)
Theorem cursor_in_bounds (cs : list call) :
  Forall call_ok cs ->
  0 <= heap_ptr (run init_state cs) <= sizeof_heap
  /\ forall c : call,
       heap_ptr (exec (run init_state cs) c) <> heap_ptr (run init_state cs) ->
       (exists size, c = Alloc size) \/ c = Reset.
Proof.
  intros Hcs. split.
  - apply (run_cursor_ok cs init_state init_cursor_ok Hcs).
  - intros [size | ptr size |] Hne.
    + left. now exists size.
    + cbn in Hne. unfold dealloc in Hne. congruence.
    + now right.
Qed.

Lemma cursor_in_bounds_witness :
  Forall call_ok [Alloc 10; Dealloc (heap_at 0) 10; Alloc 3; Reset; Alloc 50]
  /\ 0 <= heap_ptr (run init_state
                      [Alloc 10; Dealloc (heap_at 0) 10; Alloc 3; Reset; Alloc 50])
       <= sizeof_heap.
Proof.
  assert (H : Forall call_ok
                [Alloc 10; Dealloc (heap_at 0) 10; Alloc 3; Reset; Alloc 50]).
  { apply calls_okb_sound. reflexivity. }
  split; [exact H |].
  exact (proj1 (cursor_in_bounds _ H)).
Defined.

(** C7.  [alloc] is claimed never to decrease the cursor.  After
    [alloc(1); alloc(1)] the cursor is 16; then [alloc(2^32 - 8)]
    succeeds, because [16 + (2^32 - 8)] wraps to 8, and the cursor
    update wraps to 8 as well: the cursor went back from 16 to 8. *)
Theorem alloc_moves_cursor_back :
  SizeT.in_range 4294967288
  /\ heap_ptr (run init_state [Alloc 1; Alloc 1]) = 16
  /\ fst (alloc (run init_state [Alloc 1; Alloc 1]) 4294967288) = heap_at 16
  /\ heap_ptr (snd (alloc (run init_state [Alloc 1; Alloc 1]) 4294967288)) = 8
  /\ heap_ptr (exec (run init_state [Alloc 1; Alloc 1]) (Alloc 4294967288))
     < heap_ptr (run init_state [Alloc 1; Alloc 1]).
Proof.
  split; [size_lia |].
  split; [reflexivity |].
  split; [reflexivity |].
  split; reflexivity.
Qed.

(** C8.  [reset_heap] sets the cursor to 0, and a request of at most the
    arena size that succeeds as the first allocation succeeds right
    after a reset of any state, at offset 0, as it did from the initial
    state. *)
Theorem reset_then_alloc (st : state) (k : Z) :
  SizeT.in_range k -> k <= sizeof_heap ->
  fst (alloc init_state k) <> NULL ->
  heap_ptr (reset_heap st) = 0
  /\ fst (alloc (reset_heap st) k) = heap_at 0
  /\ fst (alloc (reset_heap st) k) = fst (alloc init_state k).
Proof.
  intros Hk Hle Hinit.
  assert (Hadd : SizeT.add 0 k = k) by (apply wrap_small; exact Hk).
  assert (Hgt : (k >? sizeof_heap) = false).
  { rewrite Z.gtb_ltb. apply Z.ltb_ge. exact Hle. }
  split; [reflexivity |].
  unfold alloc, reset_heap; cbn [heap_ptr heap init_state].
  rewrite Hadd, Hgt. split; reflexivity.
Qed.

Lemma reset_then_alloc_witness :
  SizeT.in_range 50 /\ 50 <= sizeof_heap
  /\ fst (alloc init_state 50) <> NULL
  /\ heap_ptr (reset_heap (run init_state [Alloc 65000; Alloc 500])) = 0
  /\ fst (alloc (reset_heap (run init_state [Alloc 65000; Alloc 500])) 50)
     = heap_at 0.
Proof.
  assert (H1 : SizeT.in_range 50) by (apply in_rangeb_spec; reflexivity).
  assert (H2 : 50 <= sizeof_heap) by (apply Z.leb_le; reflexivity).
  assert (H3 : fst (alloc init_state 50) <> NULL) by (cbn; discriminate).
  pose proof (reset_then_alloc (run init_state [Alloc 65000; Alloc 500]) 50
                H1 H2 H3) as [R1 [R2 _]].
  repeat split; assumption.
Defined.

(** C9.  [dealloc] is a no-op: one call, or any number of calls with any
    arguments, leaves the state as it was, and any later [alloc] or
    sequence of [alloc] calls returns what it would have returned
    without them. *)
Theorem dealloc_noop (st : state) (args : list (pointer * Z)) :
  (forall ptr size, dealloc st ptr size = st)
  /\ deallocs st args = st
  /\ (forall size, alloc (deallocs st args) size = alloc st size)
  /\ (forall sizes, allocs (deallocs st args) sizes = allocs st sizes).
Proof.
  split; [reflexivity |].
  rewrite (deallocs_id args st).
  split; [reflexivity | split; reflexivity].
Qed.

(** C10.  With [size_t] arithmetic modulo [2^32] there is a reachable
    state, cursor 8, and a size beyond the remaining capacity,
    [2^32 - 4], for which [alloc] returns non-null: the sum in the
    bounds check wraps around to 4, the sum [size + 7] wraps too and
    the padded size is 0, so the cursor stays at 8 and does not move
    past the returned region. *)
Theorem alloc_wraps_around :
  exists (cs : list call) (size : Z),
    Forall call_ok cs /\ SizeT.in_range size
    /\ size = 2 ^ 32 - 4
    /\ heap_ptr (run init_state cs) = 8
    /\ size > sizeof_heap - heap_ptr (run init_state cs)
    /\ SizeT.modulus <= heap_ptr (run init_state cs) + size
    /\ SizeT.add (heap_ptr (run init_state cs)) size = 4
    /\ fst (alloc (run init_state cs) size) = heap_at 8
    /\ SizeT.modulus <= size + 7
    /\ padded size = 0
    /\ heap_ptr (snd (alloc (run init_state cs) size)) = 8
    /\ heap_ptr (snd (alloc (run init_state cs) size)) < 8 + size.
Proof.
  exists [Alloc 1], 4294967292.
  split; [apply calls_okb_sound; reflexivity |].
  split; [size_lia |].
  split; [reflexivity |].
  split; [reflexivity |].
  split; [reflexivity |].
  split; [vm_compute; congruence |].
  split; [reflexivity |].
  split; [reflexivity |].
  split; [vm_compute; congruence |].
  split; [reflexivity |].
  split; reflexivity.
Qed.

(** * The exported functions *)

(** ** Arithmetic of [int] and [int64_t] *)

Lemma int_bounds : Int.min = -2147483648 /\ Int.max = 2147483647.
Proof. split; reflexivity. Qed.

Lemma int64_bounds :
  Int64.min = -9223372036854775808 /\ Int64.max = 9223372036854775807.
Proof. split; reflexivity. Qed.

(** Linear arithmetic with the bounds of the two signed types. *)
Ltac int_lia :=
  pose proof int_bounds; pose proof int64_bounds;
  unfold Int.in_range, Int64.in_range in *;
  lia.

Lemma int_in_rangeb_spec (z : Z) : Int.in_rangeb z = true <-> Int.in_range z.
Proof.
  unfold Int.in_rangeb, Int.in_range.
  rewrite andb_true_iff, !Z.leb_le. tauto.
Qed.

Lemma int64_in_rangeb_spec (z : Z) :
  Int64.in_rangeb z = true <-> Int64.in_range z.
Proof.
  unfold Int64.in_rangeb, Int64.in_range.
  rewrite andb_true_iff, !Z.leb_le. tauto.
Qed.

Lemma int_checked_ret (z : Z) : Int.in_range z -> Int.checked z = Ret z.
Proof.
  intros H. unfold Int.checked.
  now rewrite (proj2 (int_in_rangeb_spec z) H).
Qed.

Lemma int_checked_undef (z : Z) :
  ~ Int.in_range z -> Int.checked z = Undefined.
Proof.
  intros H. unfold Int.checked.
  destruct (Int.in_rangeb z) eqn:E; [| reflexivity].
  apply int_in_rangeb_spec in E. contradiction.
Qed.

Lemma int_checked_inv (z r : Z) :
  Int.checked z = Ret r -> r = z /\ Int.in_range z.
Proof.
  unfold Int.checked. destruct (Int.in_rangeb z) eqn:E; [| discriminate].
  intros [= <-]. split; [reflexivity | now apply int_in_rangeb_spec].
Qed.

Lemma int64_checked_ret (z : Z) : Int64.in_range z -> Int64.checked z = Ret z.
Proof.
  intros H. unfold Int64.checked.
  now rewrite (proj2 (int64_in_rangeb_spec z) H).
Qed.

Lemma int64_checked_undef (z : Z) :
  ~ Int64.in_range z -> Int64.checked z = Undefined.
Proof.
  intros H. unfold Int64.checked.
  destruct (Int64.in_rangeb z) eqn:E; [| reflexivity].
  apply int64_in_rangeb_spec in E. contradiction.
Qed.

(** ** [add], [subtract], [multiply] *)

(** X1.  [subtract] undoes [add] and [add] undoes [subtract]: when
    [add(a, b)] returns [c], [subtract(c, b)] returns [a] and
    [subtract(c, a)] returns [b]; when [subtract(a, b)] returns [c],
    [add(c, b)] returns [a]. *)
Theorem add_subtract_round_trip (a b c : Z) :
  Int.in_range a -> Int.in_range b ->
  (add a b = Ret c -> subtract c b = Ret a /\ subtract c a = Ret b)
  /\ (subtract a b = Ret c -> add c b = Ret a).
Proof.
  intros Ha Hb. unfold add, subtract, Int.add, Int.sub. split.
  - intros H. apply int_checked_inv in H as [-> _].
    replace (a + b - b) with a by lia.
    replace (a + b - a) with b by lia.
    split; now apply int_checked_ret.
  - intros H. apply int_checked_inv in H as [-> _].
    replace (a - b + b) with a by lia.
    now apply int_checked_ret.
Qed.

Lemma add_subtract_round_trip_witness :
  add 2147483000 647 = Ret 2147483647
  /\ subtract 2147483647 647 = Ret 2147483000
  /\ subtract 2147483647 2147483000 = Ret 647.
Proof.
  assert (Ha : Int.in_range 2147483000) by (apply int_in_rangeb_spec; reflexivity).
  assert (Hb : Int.in_range 647) by (apply int_in_rangeb_spec; reflexivity).
  split; [reflexivity |].
  apply (proj1 (add_subtract_round_trip 2147483000 647 2147483647 Ha Hb)).
  reflexivity.
Defined.

(** X2.  Negating an [int] through [multiply(a, -1)] or
    [subtract(0, a)] returns [-a] for every [int] except [INT_MIN],
    where both overflow. *)
Theorem negate_overflows_at_int_min (a : Z) :
  Int.in_range a ->
  multiply a (-1) = subtract 0 a
  /\ (a <> Int.min -> multiply a (-1) = Ret (- a))
  /\ (a = Int.min -> multiply a (-1) = Undefined).
Proof.
  intros Ha. unfold multiply, subtract, Int.mul, Int.sub.
  replace (a * -1) with (- a) by lia.
  replace (0 - a) with (- a) by lia.
  split; [reflexivity | split].
  - intros Hne. apply int_checked_ret. int_lia.
  - intros ->. reflexivity.
Qed.

Lemma negate_overflows_at_int_min_witness :
  Int.in_range Int.min
  /\ multiply Int.min (-1) = subtract 0 Int.min
  /\ multiply Int.min (-1) = Undefined.
Proof.
  assert (Ha : Int.in_range Int.min) by (apply int_in_rangeb_spec; reflexivity).
  split; [exact Ha |].
  pose proof (negate_overflows_at_int_min Int.min Ha) as [H1 [_ H3]].
  split; [exact H1 | exact (H3 eq_refl)].
Defined.

(** ** [factorial] *)

Lemma factorial_loop_eq (fuel : nat) (n i result : Z) :
  factorial_loop fuel n i result =
    if i <=? n then
      match fuel with
      | O => OutOfFuel
      | S fuel' =>
          result' <- Int64.mul result i ;;
          i' <- Int.add i 1 ;;
          factorial_loop fuel' n i' result'
      end
    else Ret result.
Proof. destruct fuel; reflexivity. Qed.

Lemma factZ_fact (k : nat) : factZ k = Z.of_nat (fact k).
Proof.
  induction k as [| k IH]; [reflexivity |].
  change (fact (S k)) with (S k * fact k)%nat.
  rewrite Nat2Z.inj_mul. cbn [factZ]. now rewrite IH.
Qed.

Lemma factZ_pos (k : nat) : 1 <= factZ k.
Proof.
  induction k as [| k IH]; [cbn; lia |].
  cbn [factZ]. nia.
Qed.

Lemma factZ_le (k m : nat) : (k <= m)%nat -> factZ k <= factZ m.
Proof.
  induction 1 as [| m Hle IH]; [lia |].
  pose proof (factZ_pos m). cbn [factZ]. nia.
Qed.

Lemma factZ_20 : factZ 20 = 2432902008176640000.
Proof. vm_compute. reflexivity. Qed.

(** One turn of the loop while the product still fits. *)
Lemma factorial_loop_step (fuel : nat) (n : Z) (m : nat) :
  Z.of_nat (S m) <= n -> (S m <= 20)%nat ->
  factorial_loop (S fuel) n (Z.of_nat (S m)) (factZ m)
  = factorial_loop fuel n (Z.of_nat (S (S m))) (factZ (S m)).
Proof.
  intros Hn Hm. rewrite factorial_loop_eq.
  destruct (Z.leb_spec (Z.of_nat (S m)) n) as [_ | Hc]; [| lia].
  unfold Int64.mul, Int.add.
  pose proof (factZ_le (S m) 20 Hm) as Hb. rewrite factZ_20 in Hb.
  pose proof (factZ_pos (S m)) as Hp.
  replace (factZ m * Z.of_nat (S m)) with (factZ (S m))
    by (cbn [factZ]; lia).
  rewrite int64_checked_ret by int_lia. cbn [bind].
  rewrite int_checked_ret by int_lia. cbn [bind].
  f_equal. lia.
Qed.

Lemma factorial_loop_correct (k : nat) :
  forall (fuel : nat) (n : Z) (m : nat),
    Z.of_nat (S m) + Z.of_nat k = n + 1 -> n <= 20 -> (k <= fuel)%nat ->
    factorial_loop fuel n (Z.of_nat (S m)) (factZ m) = Ret (factZ (Z.to_nat n)).
Proof.
  induction k as [| k IH]; intros fuel n m Hk Hn Hf.
  - rewrite factorial_loop_eq.
    destruct (Z.leb_spec (Z.of_nat (S m)) n) as [Hc | _]; [lia |].
    do 2 f_equal. lia.
  - destruct fuel as [| fuel]; [lia |].
    rewrite factorial_loop_step by lia.
    apply IH; lia.
Qed.

Lemma factorial_loop_overflow (k : nat) :
  forall (fuel : nat) (n : Z) (m : nat),
    (S m + k = 21)%nat -> 21 <= n -> (k < fuel)%nat ->
    factorial_loop fuel n (Z.of_nat (S m)) (factZ m) = Undefined.
Proof.
  induction k as [| k IH]; intros fuel n m Hk Hn Hf.
  - assert (m = 20%nat) by lia. subst m.
    destruct fuel as [| fuel]; [lia |].
    rewrite factorial_loop_eq.
    destruct (Z.leb_spec (Z.of_nat 21) n) as [_ | Hc]; [| lia].
    rewrite factZ_20. reflexivity.
  - destruct fuel as [| fuel]; [lia |].
    rewrite factorial_loop_step by lia.
    apply IH; lia.
Qed.

(** X3.  For every [n <= 20] [factorial(n)] returns [n!]; in particular
    it returns 1 for 0, 1 and every negative argument. *)
Theorem factorial_correct (n : Z) :
  n <= 20 ->
  factorial n = Ret (Z.of_nat (fact (Z.to_nat n)))
  /\ (n <= 1 -> factorial n = Ret 1).
Proof.
  intros Hn. unfold factorial.
  destruct (Z.leb_spec n 1) as [H1 | H1].
  - split; [| reflexivity].
    assert (Hc : Z.to_nat n = 0%nat \/ Z.to_nat n = 1%nat) by lia.
    destruct Hc as [-> | ->]; reflexivity.
  - split; [| lia].
    rewrite <- factZ_fact.
    apply (factorial_loop_correct (Z.to_nat (n - 1)) (Z.to_nat n) n 1); lia.
Qed.

Lemma factorial_correct_witness :
  5 <= 20 /\ factorial 5 = Ret 120.
Proof.
  assert (H : 5 <= 20) by lia.
  split; [exact H |].
  exact (proj1 (factorial_correct 5 H)).
Defined.

(** X4.  For every [n >= 21] [factorial(n)] overflows [int64_t]: the
    product [20! * 21] is not representable. *)
Theorem factorial_overflow (n : Z) :
  21 <= n -> factorial n = Undefined.
Proof.
  intros Hn. unfold factorial.
  destruct (Z.leb_spec n 1) as [H1 | H1]; [lia |].
  apply (factorial_loop_overflow 19 (Z.to_nat n) n 1); lia.
Qed.

Lemma factorial_overflow_witness :
  21 <= 21 /\ factorial 21 = Undefined.
Proof.
  assert (H : 21 <= 21) by lia.
  split; [exact H | exact (factorial_overflow 21 H)].
Defined.

(** ** [fibonacci] *)

Lemma fibonacci_loop_eq (fuel : nat) (n i a b : Z) :
  fibonacci_loop fuel n i a b =
    if i <=? n then
      match fuel with
      | O => OutOfFuel
      | S fuel' =>
          tmp <- Int64.add a b ;;
          i' <- Int.add i 1 ;;
          fibonacci_loop fuel' n i' b tmp
      end
    else Ret b.
Proof. destruct fuel; reflexivity. Qed.

Lemma fib_rec (k : nat) : fib (S (S k)) = fib (S k) + fib k.
Proof. reflexivity. Qed.

Lemma fib_pair_spec (k : nat) : fib_pair k = (fib k, fib (S k)).
Proof.
  induction k as [| k IH]; [reflexivity |].
  cbn [fib_pair]. rewrite IH, fib_rec. f_equal. lia.
Qed.

Lemma fib_nonneg (k : nat) : 0 <= fib k /\ 0 <= fib (S k).
Proof.
  induction k as [| k [IH1 IH2]]; [cbn; lia |].
  rewrite fib_rec. lia.
Qed.

Lemma fib_le (k m : nat) : (k <= m)%nat -> fib k <= fib m.
Proof.
  induction 1 as [| m Hle IH]; [lia |].
  destruct m as [| m]; [cbn in *; lia |].
  rewrite fib_rec. pose proof (fib_nonneg m). lia.
Qed.

Lemma fib_of_pair (k : nat) (a b : Z) :
  fib_pair k = (a, b) -> fib k = a /\ fib (S k) = b.
Proof.
  rewrite fib_pair_spec. intros [= H1 H2]. now split.
Qed.

Lemma fib_92_93 :
  fib 92 = 7540113804746346429 /\ fib 93 = 12200160415121876738.
Proof.
  apply (fib_of_pair 92 7540113804746346429 12200160415121876738).
  vm_compute. reflexivity.
Qed.

(** One turn of the loop while the sum still fits. *)
Lemma fibonacci_loop_step (fuel : nat) (n : Z) (m : nat) :
  Z.of_nat m + 2 <= n -> (m + 2 <= 92)%nat ->
  fibonacci_loop (S fuel) n (Z.of_nat m + 2) (fib m) (fib (S m))
  = fibonacci_loop fuel n (Z.of_nat (S m) + 2) (fib (S m)) (fib (S (S m))).
Proof.
  intros Hn Hm. rewrite fibonacci_loop_eq.
  destruct (Z.leb_spec (Z.of_nat m + 2) n) as [_ | Hc]; [| lia].
  unfold Int64.add, Int.add.
  pose proof (fib_le (S (S m)) 92 ltac:(lia)) as Hb.
  rewrite (proj1 fib_92_93) in Hb.
  pose proof (fib_nonneg (S (S m))) as [Hp _].
  replace (fib m + fib (S m)) with (fib (S (S m))) by (rewrite fib_rec; lia).
  rewrite int64_checked_ret by int_lia. cbn [bind].
  rewrite int_checked_ret by int_lia. cbn [bind].
  f_equal. lia.
Qed.

Lemma fibonacci_loop_correct (k : nat) :
  forall (fuel : nat) (n : Z) (m : nat),
    Z.of_nat m + 2 + Z.of_nat k = n + 1 -> n <= 92 -> (k <= fuel)%nat ->
    fibonacci_loop fuel n (Z.of_nat m + 2) (fib m) (fib (S m))
    = Ret (fib (Z.to_nat n)).
Proof.
  induction k as [| k IH]; intros fuel n m Hk Hn Hf.
  - rewrite fibonacci_loop_eq.
    destruct (Z.leb_spec (Z.of_nat m + 2) n) as [Hc | _]; [lia |].
    do 2 f_equal. lia.
  - destruct fuel as [| fuel]; [lia |].
    rewrite fibonacci_loop_step by lia.
    apply IH; lia.
Qed.

Lemma fibonacci_loop_overflow (k : nat) :
  forall (fuel : nat) (n : Z) (m : nat),
    (m + 2 + k = 93)%nat -> 93 <= n -> (k < fuel)%nat ->
    fibonacci_loop fuel n (Z.of_nat m + 2) (fib m) (fib (S m)) = Undefined.
Proof.
  induction k as [| k IH]; intros fuel n m Hk Hn Hf.
  - assert (m = 91%nat) by lia. subst m.
    destruct fuel as [| fuel]; [lia |].
    rewrite fibonacci_loop_eq.
    destruct (Z.leb_spec (Z.of_nat 91 + 2) n) as [_ | Hc]; [| lia].
    unfold Int64.add.
    replace (fib 91 + fib 92) with (fib 93) by (rewrite (fib_rec 91); lia).
    rewrite (proj2 fib_92_93). reflexivity.
  - destruct fuel as [| fuel]; [lia |].
    rewrite fibonacci_loop_step by lia.
    apply IH; lia.
Qed.

(** X5.  For every [n <= 92] [fibonacci(n)] returns the [n]-th number
    of the sequence [F(0) = 0], [F(1) = 1], [F(k+2) = F(k+1) + F(k)];
    for a negative [n] it returns 0. *)
Theorem fibonacci_correct (n : Z) :
  n <= 92 ->
  fibonacci n = Ret (fib (Z.to_nat n))
  /\ (n <= 0 -> fibonacci n = Ret 0).
Proof.
  intros Hn. unfold fibonacci.
  destruct (Z.leb_spec n 0) as [H0 | H0].
  - split; [| reflexivity].
    replace (Z.to_nat n) with 0%nat by lia. reflexivity.
  - split; [| lia].
    destruct (Z.eqb_spec n 1) as [-> | H1]; [reflexivity |].
    apply (fibonacci_loop_correct (Z.to_nat (n - 1)) (Z.to_nat n) n 0); lia.
Qed.

Lemma fibonacci_correct_witness :
  10 <= 92 /\ fibonacci 10 = Ret 55.
Proof.
  assert (H : 10 <= 92) by lia.
  split; [exact H |].
  exact (proj1 (fibonacci_correct 10 H)).
Defined.

(** X6.  For every [n >= 93] [fibonacci(n)] overflows [int64_t]: the
    sum [F(91) + F(92)] is not representable. *)
Theorem fibonacci_overflow (n : Z) :
  93 <= n -> fibonacci n = Undefined.
Proof.
  intros Hn. unfold fibonacci.
  destruct (Z.leb_spec n 0) as [H0 | H0]; [lia |].
  destruct (Z.eqb_spec n 1) as [-> | H1]; [lia |].
  apply (fibonacci_loop_overflow 91 (Z.to_nat n) n 0); lia.
Qed.

Lemma fibonacci_overflow_witness :
  93 <= 93 /\ fibonacci 93 = Undefined.
Proof.
  assert (H : 93 <= 93) by lia.
  split; [exact H | exact (fibonacci_overflow 93 H)].
Defined.

(** ** Reads through a pointer *)

Lemma load_app {A : Type} (pre suf : list A) (x : A) :
  load (pre ++ x :: suf) (Z.of_nat (length pre)) = Ret x.
Proof.
  unfold load.
  destruct (Z.ltb_spec (Z.of_nat (length pre)) 0) as [H | _]; [lia |].
  rewrite Nat2Z.id, nth_error_app2 by lia.
  now rewrite Nat.sub_diag.
Qed.

Lemma load_end {A : Type} (obj : list A) (i : Z) :
  Z.of_nat (length obj) <= i -> load obj i = Undefined.
Proof.
  intros H. unfold load.
  destruct (Z.ltb_spec i 0) as [_ | _]; [reflexivity |].
  assert (E : nth_error obj (Z.to_nat i) = None)
    by (apply nth_error_None; lia).
  now rewrite E.
Qed.

Lemma app_cons_assoc {A : Type} (pre suf : list A) (x : A) :
  pre ++ x :: suf = (pre ++ [x]) ++ suf.
Proof. now rewrite <- app_assoc. Qed.

(** ** [sum_array] *)

Lemma sum_array_loop_eq (fuel : nat) (arr : list Z) (len i sum : Z) :
  sum_array_loop fuel arr len i sum =
    if i <? len then
      match fuel with
      | O => OutOfFuel
      | S fuel' =>
          x <- load arr i ;;
          sum' <- Int.add sum x ;;
          i' <- Int.add i 1 ;;
          sum_array_loop fuel' arr len i' sum'
      end
    else Ret sum.
Proof. destruct fuel; reflexivity. Qed.

Lemma partial_sums_okb_spec (l : list Z) :
  forall acc, partial_sums_okb acc l = true <-> partial_sums_ok acc l.
Proof.
  induction l as [| x l IH]; intros acc; cbn; [tauto |].
  rewrite andb_true_iff, int_in_rangeb_spec, IH. tauto.
Qed.

(** One turn of the loop on the element at index [length pre]. *)
Lemma sum_array_loop_step (fuel : nat) (pre suf : list Z) (x len sum : Z) :
  Z.of_nat (length pre) < len -> Int.in_range len ->
  sum_array_loop (S fuel) (pre ++ x :: suf) len (Z.of_nat (length pre)) sum
  = sum' <- Int.add sum x ;;
    sum_array_loop fuel ((pre ++ [x]) ++ suf) len
      (Z.of_nat (length (pre ++ [x]))) sum'.
Proof.
  intros Hi Hlen. rewrite sum_array_loop_eq.
  destruct (Z.ltb_spec (Z.of_nat (length pre)) len) as [_ | Hc]; [| lia].
  rewrite load_app. cbn [bind].
  destruct (Int.add sum x) as [sum' | |]; cbn [bind]; try reflexivity.
  unfold Int.add. rewrite int_checked_ret by int_lia. cbn [bind].
  rewrite <- app_cons_assoc. f_equal.
  rewrite length_app. cbn [length]. lia.
Qed.

(** The loop over a segment whose running sums stay in range. *)
Lemma sum_array_loop_run (seg : list Z) :
  forall (fuel : nat) (pre rest : list Z) (len sum : Z),
    len = Z.of_nat (length pre + length seg) -> Int.in_range len ->
    (length seg <= fuel)%nat -> partial_sums_ok sum seg ->
    sum_array_loop fuel (pre ++ seg ++ rest) len (Z.of_nat (length pre)) sum
    = Ret (sum + sumZ seg).
Proof.
  induction seg as [| x seg IH]; intros fuel pre rest len sum Hlen Hr Hf Hok.
  - rewrite sum_array_loop_eq.
    destruct (Z.ltb_spec (Z.of_nat (length pre)) len) as [Hc | _];
      [cbn in Hlen; lia |].
    cbn. f_equal. lia.
  - destruct fuel as [| fuel]; [cbn in Hf; lia |].
    destruct Hok as [Hx Hok]. cbn [length] in *.
    change ((x :: seg) ++ rest) with (x :: seg ++ rest).
    rewrite sum_array_loop_step by (assumption || lia).
    unfold Int.add at 1. rewrite int_checked_ret by exact Hx. cbn [bind].
    rewrite (IH fuel (pre ++ [x]) rest len (sum + x)); try assumption.
    + cbn [sumZ fold_right]. f_equal. unfold sumZ. lia.
    + rewrite length_app. cbn [length]. lia.
    + lia.
Qed.

(** The loop over a segment with a running sum out of range. *)
Lemma sum_array_loop_overflow (seg : list Z) :
  forall (fuel : nat) (pre rest : list Z) (len sum : Z),
    len = Z.of_nat (length pre + length seg) -> Int.in_range len ->
    (length seg <= fuel)%nat -> ~ partial_sums_ok sum seg ->
    sum_array_loop fuel (pre ++ seg ++ rest) len (Z.of_nat (length pre)) sum
    = Undefined.
Proof.
  induction seg as [| x seg IH]; intros fuel pre rest len sum Hlen Hr Hf Hok.
  - exfalso. apply Hok. exact I.
  - destruct fuel as [| fuel]; [cbn in Hf; lia |].
    cbn [length] in *.
    change ((x :: seg) ++ rest) with (x :: seg ++ rest).
    rewrite sum_array_loop_step by (assumption || lia).
    unfold Int.add at 1, Int.checked.
    destruct (Int.in_rangeb (sum + x)) eqn:Ex; cbn [bind]; [| reflexivity].
    apply int_in_rangeb_spec in Ex.
    apply IH; try assumption.
    + rewrite length_app. cbn [length]. lia.
    + lia.
    + intros Hok'. apply Hok. split; assumption.
Qed.

(** The loop asked to go beyond the end of the array. *)
Lemma sum_array_loop_oob (seg : list Z) :
  forall (fuel : nat) (pre : list Z) (len sum : Z),
    Z.of_nat (length pre + length seg) < len -> Int.in_range len ->
    (length seg < fuel)%nat ->
    sum_array_loop fuel (pre ++ seg) len (Z.of_nat (length pre)) sum
    = Undefined.
Proof.
  induction seg as [| x seg IH]; intros fuel pre len sum Hlen Hr Hf.
  - destruct fuel as [| fuel]; [lia |].
    rewrite sum_array_loop_eq. cbn [length] in Hlen.
    destruct (Z.ltb_spec (Z.of_nat (length pre)) len) as [_ | Hc]; [| lia].
    rewrite load_end by (rewrite length_app; cbn [length]; lia).
    reflexivity.
  - destruct fuel as [| fuel]; [lia |].
    cbn [length] in *.
    rewrite sum_array_loop_step by (assumption || lia).
    destruct (Int.add sum x) as [sum' | |] eqn:Ex; cbn [bind];
      [| reflexivity |].
    + apply IH; try assumption; [rewrite length_app; cbn [length] |]; lia.
    + unfold Int.add, Int.checked in Ex.
      destruct (Int.in_rangeb (sum + x)); discriminate.
Qed.

(** X7.  When [len] is at most the number of elements of the array and
    adding the first [len] elements from the left never leaves the range
    of [int], [sum_array(arr, len)] returns their sum; for [len <= 0] it
    returns 0 without reading the array. *)
Theorem sum_array_correct (arr : list Z) (len : Z) :
  Int.in_range len -> len <= Z.of_nat (length arr) ->
  partial_sums_ok 0 (firstn (Z.to_nat len) arr) ->
  sum_array arr len = Ret (sumZ (firstn (Z.to_nat len) arr))
  /\ (len <= 0 -> sum_array arr len = Ret 0).
Proof.
  intros Hr Hlen Hok. unfold sum_array.
  assert (Hrun :
    sum_array_loop (Z.to_nat len) arr len 0 0
    = Ret (sumZ (firstn (Z.to_nat len) arr))).
  { pose proof (firstn_skipn (Z.to_nat len) arr) as Hsplit.
    assert (Hl : length (firstn (Z.to_nat len) arr) = Z.to_nat len)
      by (rewrite length_firstn; lia).
    rewrite <- Hsplit at 1.
    destruct (Z.le_gt_cases len 0) as [Hneg | Hpos].
    - replace (Z.to_nat len) with 0%nat by lia.
      rewrite sum_array_loop_eq.
      destruct (Z.ltb_spec 0 len) as [Hc | _]; [lia | reflexivity].
    - apply (sum_array_loop_run _ (Z.to_nat len) [] (skipn (Z.to_nat len) arr)
               len 0); try assumption; cbn [length]; lia. }
  split; [exact Hrun |].
  intros Hneg. rewrite Hrun.
  replace (Z.to_nat len) with 0%nat by lia. reflexivity.
Qed.

Lemma sum_array_correct_witness :
  Int.in_range 3 /\ 3 <= Z.of_nat (length [2147483647; -5; 4; 100])
  /\ sum_array [2147483647; -5; 4; 100] 3 = Ret 2147483646.
Proof.
  assert (H1 : Int.in_range 3) by (apply int_in_rangeb_spec; reflexivity).
  assert (H2 : 3 <= Z.of_nat (length [2147483647; -5; 4; 100]))
    by (apply Z.leb_le; reflexivity).
  assert (H3 : partial_sums_ok 0
                 (firstn (Z.to_nat 3) [2147483647; -5; 4; 100]))
    by (apply partial_sums_okb_spec; reflexivity).
  split; [exact H1 | split; [exact H2 |]].
  exact (proj1 (sum_array_correct [2147483647; -5; 4; 100] 3 H1 H2 H3)).
Defined.

(** X8.  [sum_array(arr, len)] has no defined result when [len] exceeds
    the number of elements of the array (it reads past its end), or when
    a running sum of the first [len] elements leaves the range of [int],
    also when their total is in range. *)
Theorem sum_array_undefined (arr : list Z) (len : Z) :
  Int.in_range len ->
  Z.of_nat (length arr) < len
  \/ ~ partial_sums_ok 0 (firstn (Z.to_nat len) arr) ->
  sum_array arr len = Undefined.
Proof.
  intros Hr Hbad. unfold sum_array.
  destruct (Z.le_gt_cases len (Z.of_nat (length arr))) as [Hin | Hout].
  - destruct Hbad as [Hout | Hov]; [lia |].
    pose proof (firstn_skipn (Z.to_nat len) arr) as Hsplit.
    assert (Hl : length (firstn (Z.to_nat len) arr) = Z.to_nat len)
      by (rewrite length_firstn; lia).
    assert (Hpos : 0 < len).
    { destruct (Z.le_gt_cases len 0) as [Hneg | Hpos]; [| lia].
      exfalso. apply Hov.
      replace (Z.to_nat len) with 0%nat by lia. exact I. }
    rewrite <- Hsplit at 1.
    apply (sum_array_loop_overflow _ (Z.to_nat len) [] (skipn (Z.to_nat len) arr)
             len 0); try assumption; cbn [length]; lia.
  - apply (sum_array_loop_oob arr (Z.to_nat len) [] len 0);
      try assumption; cbn [length]; lia.
Qed.

Lemma sum_array_undefined_witness :
  Int.in_range 3
  /\ sumZ (firstn (Z.to_nat 3) [2147483647; 1; -1]) = 2147483647
  /\ sum_array [2147483647; 1; -1] 3 = Undefined
  /\ sum_array [1; 2] 3 = Undefined.
Proof.
  assert (H1 : Int.in_range 3) by (apply int_in_rangeb_spec; reflexivity).
  split; [exact H1 | split; [reflexivity | split]].
  - apply (sum_array_undefined [2147483647; 1; -1] 3 H1).
    right. intros H. apply partial_sums_okb_spec in H. discriminate H.
  - apply (sum_array_undefined [1; 2] 3 H1).
    left. cbn. lia.
Defined.

(** ** [string_length] *)

Lemma string_length_loop_eq (fuel : nat) (str : list byte) (len : Z) :
  string_length_loop fuel str len =
    c <- load str len ;;
    if negb (Byte.eqb c x00) then
      match fuel with
      | O => OutOfFuel
      | S fuel' =>
          len' <- Int.add len 1 ;;
          string_length_loop fuel' str len'
      end
    else Ret len.
Proof. destruct fuel; reflexivity. Qed.

Lemma byte_eqb_x00 (c : byte) : c <> x00 -> Byte.eqb c x00 = false.
Proof.
  intros H. destruct (Byte.eqb c x00) eqn:E; [| reflexivity].
  apply Byte.byte_dec_bl in E. contradiction.
Qed.

(** One turn of the loop on a character that is not the terminator. *)
Lemma string_length_loop_step (fuel : nat) (pre suf : list byte) (c : byte) :
  c <> x00 ->
  string_length_loop (S fuel) (pre ++ c :: suf) (Z.of_nat (length pre))
  = len' <- Int.add (Z.of_nat (length pre)) 1 ;;
    string_length_loop fuel ((pre ++ [c]) ++ suf) len'.
Proof.
  intros Hc. rewrite string_length_loop_eq, load_app. cbn [bind].
  rewrite (byte_eqb_x00 c Hc). cbn [negb].
  now rewrite <- app_cons_assoc.
Qed.

Lemma length_snoc (pre : list byte) (c : byte) :
  Z.of_nat (length pre) + 1 = Z.of_nat (length (pre ++ [c])).
Proof. rewrite length_app. cbn [length]. lia. Qed.

(** The loop over characters followed by a terminator. *)
Lemma string_length_loop_run (s : list byte) :
  forall (fuel : nat) (pre rest : list byte),
    Forall (fun c => c <> x00) s ->
    Z.of_nat (length pre + length s) <= Int.max ->
    (length s <= fuel)%nat ->
    string_length_loop fuel (pre ++ s ++ x00 :: rest) (Z.of_nat (length pre))
    = Ret (Z.of_nat (length pre + length s)).
Proof.
  induction s as [| c s IH]; intros fuel pre rest Hs Hmax Hf.
  - rewrite string_length_loop_eq. cbn [app]. rewrite load_app.
    cbn. do 2 f_equal. lia.
  - inversion Hs as [| c' s' Hc Hs']; subst.
    destruct fuel as [| fuel]; [cbn in Hf; lia |].
    cbn [length] in *.
    change ((c :: s) ++ x00 :: rest) with (c :: s ++ x00 :: rest).
    rewrite (string_length_loop_step _ _ _ _ Hc).
    unfold Int.add. rewrite int_checked_ret by int_lia. cbn [bind].
    rewrite (length_snoc pre c), (IH fuel (pre ++ [c]) rest Hs').
    + do 2 f_equal. rewrite length_app. cbn [length]. lia.
    + rewrite length_app. cbn [length]. lia.
    + lia.
Qed.

(** The loop over characters with no terminator behind them. *)
Lemma string_length_loop_unterminated (s : list byte) :
  forall (fuel : nat) (pre : list byte),
    Forall (fun c => c <> x00) s ->
    (length s <= fuel)%nat ->
    string_length_loop fuel (pre ++ s) (Z.of_nat (length pre)) = Undefined.
Proof.
  induction s as [| c s IH]; intros fuel pre Hs Hf.
  - rewrite string_length_loop_eq, load_end; [reflexivity |].
    rewrite app_nil_r. lia.
  - inversion Hs as [| c' s' Hc Hs']; subst.
    destruct fuel as [| fuel]; [cbn in Hf; lia |].
    cbn [length] in Hf.
    rewrite (string_length_loop_step _ _ _ _ Hc).
    unfold Int.add, Int.checked.
    destruct (Int.in_rangeb (Z.of_nat (length pre) + 1)); cbn [bind];
      [| reflexivity].
    rewrite (length_snoc pre c). apply IH; [exact Hs' | lia].
Qed.

(** The loop over more characters than [int] can count. *)
Lemma string_length_loop_overflow (s : list byte) :
  forall (fuel : nat) (pre rest : list byte),
    Forall (fun c => c <> x00) s ->
    Z.of_nat (length pre) <= Int.max ->
    Int.max < Z.of_nat (length pre + length s) ->
    (length s <= fuel)%nat ->
    string_length_loop fuel (pre ++ s ++ x00 :: rest) (Z.of_nat (length pre))
    = Undefined.
Proof.
  induction s as [| c s IH]; intros fuel pre rest Hs Hpre Hmax Hf.
  - cbn [length] in Hmax. lia.
  - inversion Hs as [| c' s' Hc Hs']; subst.
    destruct fuel as [| fuel]; [cbn in Hf; lia |].
    cbn [length] in *.
    change ((c :: s) ++ x00 :: rest) with (c :: s ++ x00 :: rest).
    rewrite (string_length_loop_step _ _ _ _ Hc).
    unfold Int.add, Int.checked.
    destruct (Int.in_rangeb (Z.of_nat (length pre) + 1)) eqn:E; cbn [bind];
      [| reflexivity].
    apply int_in_rangeb_spec in E.
    rewrite (length_snoc pre c). apply IH; try assumption.
    + rewrite <- (length_snoc pre c). int_lia.
    + rewrite length_app. cbn [length]. lia.
    + lia.
Qed.

(** A string either has no terminator or splits at its first one. *)
Lemma first_terminator (str : list byte) :
  Forall (fun c => c <> x00) str
  \/ exists s rest, str = s ++ x00 :: rest /\ Forall (fun c => c <> x00) s.
Proof.
  induction str as [| c str IH].
  - left. constructor.
  - destruct (Byte.byte_eq_dec c x00) as [-> | Hc].
    + right. exists [], str. split; [reflexivity | constructor].
    + destruct IH as [IH | (s & rest & -> & Hs)].
      * left. now constructor.
      * right. exists (c :: s), rest. split; [reflexivity | now constructor].
Qed.

(** The three runs from the start of the object. *)
Lemma string_length_run (s rest : list byte) (fuel : nat) :
  Forall (fun c => c <> x00) s ->
  Z.of_nat (length s) <= Int.max -> (length s <= fuel)%nat ->
  string_length_loop fuel (s ++ x00 :: rest) 0 = Ret (Z.of_nat (length s)).
Proof.
  intros Hs Hmax Hf.
  apply (string_length_loop_run s fuel [] rest Hs); [exact Hmax | exact Hf].
Qed.

Lemma string_length_no_terminator (s : list byte) (fuel : nat) :
  Forall (fun c => c <> x00) s -> (length s <= fuel)%nat ->
  string_length_loop fuel s 0 = Undefined.
Proof.
  intros Hs Hf.
  apply (string_length_loop_unterminated s fuel [] Hs Hf).
Qed.

Lemma string_length_too_long (s rest : list byte) (fuel : nat) :
  Forall (fun c => c <> x00) s ->
  Int.max < Z.of_nat (length s) -> (length s <= fuel)%nat ->
  string_length_loop fuel (s ++ x00 :: rest) 0 = Undefined.
Proof.
  intros Hs Hmax Hf.
  apply (string_length_loop_overflow s fuel [] rest Hs);
    [cbn; int_lia | exact Hmax | exact Hf].
Qed.

(** X9.  [string_length(str)] returns [n] exactly when the first
    terminator of the object is at index [n] and [n] is at most
    [INT_MAX]. *)
Theorem string_length_spec (str : list byte) (n : Z) :
  string_length str = Ret n
  <-> exists s rest,
        str = s ++ x00 :: rest
        /\ Forall (fun c => c <> x00) s
        /\ n = Z.of_nat (length s)
        /\ n <= Int.max.
Proof.
  unfold string_length. split.
  - intros Hret.
    destruct (first_terminator str) as [Hno | (s & rest & -> & Hs)].
    + rewrite (string_length_no_terminator str (length str) Hno) in Hret
        by lia.
      discriminate.
    + exists s, rest.
      assert (Hf : (length s <= length (s ++ x00 :: rest))%nat)
        by (rewrite length_app; lia).
      destruct (Z.le_gt_cases (Z.of_nat (length s)) Int.max) as [Hle | Hgt].
      * rewrite (string_length_run s rest _ Hs Hle Hf) in Hret.
        injection Hret as <-. now repeat split.
      * rewrite (string_length_too_long s rest _ Hs Hgt Hf) in Hret.
        discriminate.
  - intros (s & rest & -> & Hs & -> & Hle).
    apply (string_length_run s rest _ Hs Hle).
    rewrite length_app. lia.
Qed.

(** X10.  On an object with no terminator [string_length] has no
    defined result: it reads past the end of the object. *)
Theorem string_length_unterminated (str : list byte) :
  Forall (fun c => c <> x00) str -> string_length str = Undefined.
Proof.
  intros Hno. unfold string_length.
  apply (string_length_no_terminator str (length str) Hno). lia.
Qed.

Lemma string_length_unterminated_witness :
  Forall (fun c => c <> x00) [x68; x69]
  /\ string_length [x68; x69] = Undefined.
Proof.
  assert (H : Forall (fun c => c <> x00) [x68; x69])
    by (repeat constructor; discriminate).
  split; [exact H | exact (string_length_unterminated [x68; x69] H)].
Defined.

(** * More on the allocator *)

(** X11.  In every state with the cursor a multiple of 8 inside the
    arena, and for every [size_t] argument, [alloc] returns [NULL]
    exactly when [heap_ptr + size] exceeds the arena size without
    reaching [2^32]. *)
Theorem alloc_null_exact (st : state) (size : Z) :
  cursor_ok st -> SizeT.in_range size ->
  fst (alloc st size) = NULL
  <-> sizeof_heap < heap_ptr st + size < SizeT.modulus.
Proof.
  intros [Hc _] Hs. rewrite alloc_null_iff. unfold SizeT.add.
  destruct (Z_lt_ge_dec (heap_ptr st + size) SizeT.modulus) as [Hlt | Hge].
  - rewrite wrap_small by size_lia. lia.
  - rewrite wrap_over by size_lia. size_lia.
Qed.

Lemma alloc_null_exact_witness :
  fst (alloc (run init_state [Alloc 65536]) 4294901759) = NULL
  /\ fst (alloc (run init_state [Alloc 65536]) 4294901760) <> NULL.
Proof.
  assert (Hcs : Forall call_ok [Alloc 65536])
    by (apply calls_okb_sound; reflexivity).
  pose proof (run_cursor_ok [Alloc 65536] init_state init_cursor_ok Hcs) as Hok.
  assert (H1 : SizeT.in_range 4294901759) by (apply in_rangeb_spec; reflexivity).
  assert (H2 : SizeT.in_range 4294901760) by (apply in_rangeb_spec; reflexivity).
  split.
  - apply (proj2 (alloc_null_exact _ 4294901759 Hok H1)).
    split; apply Z.ltb_lt; reflexivity.
  - intros Hn. apply (proj1 (alloc_null_exact _ 4294901760 Hok H2)) in Hn.
    destruct Hn as [_ Hn]. apply Z.ltb_lt in Hn. discriminate Hn.
Defined.

(** X12.  After a successful [alloc] the cursor is the old cursor plus
    the size rounded up to a multiple of 8, reduced modulo [2^32]. *)
Theorem alloc_cursor_modular (st : state) (size : Z) :
  cursor_ok st -> SizeT.in_range size -> fst (alloc st size) <> NULL ->
  heap_ptr (snd (alloc st size)) = SizeT.wrap (heap_ptr st + align8 size).
Proof.
  intros [Hc Ha] Hs Hsome.
  assert (Hfit : SizeT.add (heap_ptr st) size <= sizeof_heap).
  { destruct (Z_le_gt_dec (SizeT.add (heap_ptr st) size) sizeof_heap)
      as [H | H]; [exact H |].
    exfalso. apply Hsome. apply alloc_null_iff. lia. }
  rewrite (alloc_some st size Hsome). cbn [snd heap_ptr].
  pose proof (align8_bounds size) as Hb.
  destruct (next_cursor_cases _ _ Hc Ha Hs Hfit)
    as [[H1 ->] | [[H1 [H2 ->]] | [H1 [H2 ->]]]].
  - symmetry. apply wrap_small.
    apply (align8_fits _ _ Ha) in H1. size_lia.
  - assert (E : align8 size = SizeT.modulus).
    { unfold align8.
      pose proof (Z.div_mod (size + 7) 8 ltac:(lia)).
      pose proof (Z.mod_pos_bound (size + 7) 8 ltac:(lia)). size_lia. }
    rewrite E, wrap_over by size_lia. lia.
  - symmetry. apply wrap_over. unfold align8 in *. size_lia.
Qed.

Lemma alloc_cursor_modular_witness :
  heap_ptr (snd (alloc (run init_state [Alloc 1; Alloc 1]) 4294967288)) = 8
  /\ SizeT.wrap (16 + align8 4294967288) = 8.
Proof.
  assert (Hcs : Forall call_ok [Alloc 1; Alloc 1])
    by (apply calls_okb_sound; reflexivity).
  pose proof (run_cursor_ok _ init_state init_cursor_ok Hcs) as Hok.
  assert (H1 : SizeT.in_range 4294967288) by (apply in_rangeb_spec; reflexivity).
  assert (H2 : fst (alloc (run init_state [Alloc 1; Alloc 1]) 4294967288) <> NULL)
    by (cbn; discriminate).
  split; [| reflexivity].
  exact (alloc_cursor_modular _ 4294967288 Hok H1 H2).
Defined.

(** X13.  A request of 0 bytes always succeeds, also when the arena is
    full: it returns the cursor and leaves the state as it was, so two
    such calls in a row return the same pointer. *)
Theorem alloc_zero (st : state) :
  cursor_ok st -> alloc st 0 = (heap_at (heap_ptr st), st).
Proof.
  intros [Hc _]. unfold alloc.
  assert (E : SizeT.add (heap_ptr st) 0 = heap_ptr st)
    by (unfold SizeT.add; rewrite Z.add_0_r; apply wrap_small; size_lia).
  assert (P : padded 0 = 0) by reflexivity.
  rewrite P, E, Z.gtb_ltb.
  destruct (Z.ltb_spec sizeof_heap (heap_ptr st)) as [H | _]; [lia |].
  destruct st; reflexivity.
Qed.

Lemma alloc_zero_witness :
  heap_ptr (run init_state [Alloc 65536]) = sizeof_heap
  /\ alloc (run init_state [Alloc 65536]) 0
     = (heap_at 65536, run init_state [Alloc 65536]).
Proof.
  assert (Hcs : Forall call_ok [Alloc 65536])
    by (apply calls_okb_sound; reflexivity).
  pose proof (run_cursor_ok _ init_state init_cursor_ok Hcs) as Hok.
  split; [reflexivity |].
  exact (alloc_zero _ Hok).
Defined.

Lemma charged_nonneg (sizes : list Z) : Forall small sizes -> 0 <= charged sizes.
Proof.
  induction 1 as [| size sizes Hs _ IH]; [cbn; lia |].
  pose proof (align8_bounds size). unfold small in Hs.
  unfold charged in *. cbn [map sumZ fold_right] in *. unfold sumZ in IH. lia.
Qed.

Lemma charged_cons (size : Z) (sizes : list Z) :
  charged (size :: sizes) = align8 size + charged sizes.
Proof. reflexivity. Qed.

(** X14.  Successive requests, none larger than the arena, all succeed
    exactly when the sizes rounded up to multiples of 8 add up to at
    most the space left; the cursor then ends that far ahead. *)
Theorem allocs_capacity (sizes : list Z) :
  forall st : state,
    cursor_ok st -> Forall small sizes ->
    (all_succeed (fst (allocs st sizes))
     <-> heap_ptr st + charged sizes <= sizeof_heap)
    /\ (all_succeed (fst (allocs st sizes)) ->
        heap_ptr (snd (allocs st sizes)) = heap_ptr st + charged sizes).
Proof.
  induction sizes as [| size sizes IH]; intros st Hst Hsm.
  - cbn. unfold all_succeed, charged; cbn. destruct Hst as [Hc _].
    split; [split; [lia | constructor] | lia].
  - inversion Hsm as [| x l Hsize Hrest]; subst.
    pose proof (alloc_small st size Hst Hsize) as Hal.
    pose proof (alloc_cursor_ok st size Hst) as Hok1.
    pose proof (charged_nonneg sizes Hrest) as Hnn.
    pose proof (align8_bounds size) as Hb.
    rewrite charged_cons. cbn [allocs].
    destruct (alloc st size) as [p st1].
    specialize (IH st1).
    destruct (allocs st1 sizes) as [ps st2]. cbn [fst snd] in *.
    rewrite Z.gtb_ltb in Hal.
    destruct (Z.ltb_spec sizeof_heap (heap_ptr st + align8 size)) as [Hf | Hf];
      injection Hal as -> ->.
    + split; [split |]; intros H.
      * inversion H as [| y l Hp _]; subst. now contradiction Hp.
      * lia.
      * inversion H as [| y l Hp _]; subst. now contradiction Hp.
    + destruct IH as [IH1 IH2];
        [apply Hok1; unfold small in Hsize; size_lia | exact Hrest |].
      cbn [heap_ptr] in *.
      split; [split |]; intros H.
      * inversion H as [| y l _ Hps]; subst. apply IH1 in Hps. lia.
      * constructor; [cbn; discriminate | apply IH1; lia].
      * inversion H as [| y l _ Hps]; subst. rewrite (IH2 Hps). lia.
Qed.

Lemma allocs_capacity_witness :
  all_succeed (fst (allocs init_state [65000; 500; 30]))
  /\ heap_ptr (snd (allocs init_state [65000; 500; 30])) = 65536
  /\ ~ all_succeed (fst (allocs init_state [65000; 500; 33])).
Proof.
  assert (H1 : Forall small [65000; 500; 30])
    by (repeat constructor; apply Z.leb_le; reflexivity).
  assert (H2 : Forall small [65000; 500; 33])
    by (repeat constructor; apply Z.leb_le; reflexivity).
  pose proof (allocs_capacity [65000; 500; 30] init_state init_cursor_ok H1)
    as [Ha Hb].
  pose proof (allocs_capacity [65000; 500; 33] init_state init_cursor_ok H2)
    as [Hc _].
  assert (Hall : all_succeed (fst (allocs init_state [65000; 500; 30])))
    by (apply (proj2 Ha); apply Z.leb_le; reflexivity).
  split; [exact Hall | split; [exact (Hb Hall) |]].
  intros H. apply (proj1 Hc) in H. apply Z.leb_le in H. discriminate H.
Defined.

(** X15.  Every non-null pointer that [alloc] returns in a state reached
    from the initial state, for any [size_t] argument, is [&heap[off]]
    with [off] a multiple of 8 between 0 and the arena size. *)
Theorem alloc_pointer_aligned (cs : list call) (size off : Z) :
  Forall call_ok cs ->
  fst (alloc (run init_state cs) size) = heap_at off ->
  aligned8 off /\ 0 <= off <= sizeof_heap.
Proof.
  intros Hcs Hp.
  pose proof (run_cursor_ok cs init_state init_cursor_ok Hcs) as [Hc Ha].
  unfold alloc in Hp.
  destruct (SizeT.add (heap_ptr (run init_state cs)) size >? sizeof_heap);
    cbn [fst] in Hp; [discriminate |].
  injection Hp as <-. split; assumption.
Qed.

Lemma alloc_pointer_aligned_witness :
  Forall call_ok [Alloc 13; Reset; Alloc 3; Alloc 4294967295]
  /\ fst (alloc (run init_state [Alloc 13; Reset; Alloc 3; Alloc 4294967295]) 5)
     = heap_at 8
  /\ aligned8 8.
Proof.
  assert (Hcs : Forall call_ok [Alloc 13; Reset; Alloc 3; Alloc 4294967295])
    by (apply calls_okb_sound; reflexivity).
  assert (Hp : fst (alloc (run init_state
                             [Alloc 13; Reset; Alloc 3; Alloc 4294967295]) 5)
               = heap_at 8) by reflexivity.
  split; [exact Hcs | split; [exact Hp |]].
  exact (proj1 (alloc_pointer_aligned _ 5 8 Hcs Hp)).
Defined.

(** [alloc] looks at the cursor only. *)
Lemma allocs_cursor_only (sizes : list Z) :
  forall st1 st2 : state,
    heap_ptr st1 = heap_ptr st2 ->
    fst (allocs st1 sizes) = fst (allocs st2 sizes)
    /\ heap_ptr (snd (allocs st1 sizes)) = heap_ptr (snd (allocs st2 sizes)).
Proof.
  induction sizes as [| size sizes IH]; intros st1 st2 He.
  - split; [reflexivity | exact He].
  - cbn [allocs]. unfold alloc. rewrite He.
    destruct (SizeT.add (heap_ptr st2) size >? sizeof_heap).
    + specialize (IH st1 st2 He).
      destruct (allocs st1 sizes) as [ps1 s1], (allocs st2 sizes) as [ps2 s2].
      cbn [fst snd] in *. destruct IH as [-> ->]. split; reflexivity.
    + specialize (IH (mkState (heap st1)
                        (SizeT.add (heap_ptr st2) (padded size)))
                     (mkState (heap st2)
                        (SizeT.add (heap_ptr st2) (padded size)))
                     eq_refl).
      destruct (allocs (mkState (heap st1) _) sizes) as [ps1 s1],
               (allocs (mkState (heap st2) _) sizes) as [ps2 s2].
      cbn [fst snd] in *. destruct IH as [-> ->]. split; reflexivity.
Qed.

(** X16.  After [reset_heap], in any state, a sequence of [alloc] calls
    returns the pointers it returns from the initial state and leaves
    the cursor where it leaves it from the initial state. *)
Theorem reset_replays_allocs (st : state) (sizes : list Z) :
  fst (allocs (reset_heap st) sizes) = fst (allocs init_state sizes)
  /\ heap_ptr (snd (allocs (reset_heap st) sizes))
     = heap_ptr (snd (allocs init_state sizes)).
Proof.
  apply allocs_cursor_only. reflexivity.
Qed.

(** X17.  No call of the allocator writes to the arena: after any
    sequence of [alloc], [dealloc] and [reset_heap] calls the bytes of
    [heap] are what they were, so memory handed out again after a reset
    still holds the old data. *)
Theorem arena_bytes_untouched (cs : list call) :
  forall st : state, heap (run st cs) = heap st.
Proof.
  induction cs as [| c cs IH]; intros st; [reflexivity |].
  cbn [run fold_left]. fold (run (exec st c) cs). rewrite IH.
  destruct c as [size | ptr size |]; cbn [exec].
  - apply alloc_heap.
  - reflexivity.
  - reflexivity.
Qed.

(** X18.  [dealloc] calls anywhere in a sequence of calls change
    neither the final state nor any pointer that an [alloc] of the
    sequence returns. *)
Theorem dealloc_calls_removable (cs : list call) :
  forall st : state,
    run st cs = run st (filter moves_cursor cs)
    /\ run_ptrs st cs = run_ptrs st (filter moves_cursor cs).
Proof.
  induction cs as [| c cs IH]; intros st; [split; reflexivity |].
  destruct c as [size | ptr size |]; cbn [filter moves_cursor run_ptrs].
  - destruct (IH (exec st (Alloc size))) as [H1 H2].
    split; [exact H1 | now rewrite H2].
  - exact (IH st).
  - exact (IH (exec st Reset)).
Qed.

(** ** More assertions of the native test *)

Example test_basic_operations :
  add 2 3 = Ret 5 /\ add (-1) 1 = Ret 0
  /\ subtract 10 4 = Ret 6 /\ subtract 5 10 = Ret (-5)
  /\ multiply 6 7 = Ret 42 /\ multiply (-3) 4 = Ret (-12)
  /\ get_answer = 42.
Proof. repeat split. Qed.

Example test_advanced_functions :
  factorial 5 = Ret 120 /\ factorial 0 = Ret 1
  /\ fibonacci 10 = Ret 55 /\ fibonacci 0 = Ret 0 /\ fibonacci 1 = Ret 1
  /\ sum_array [1; 2; 3; 4; 5] 5 = Ret 15.
Proof. repeat split. Qed.

(** ["hello"] and [""], with their terminators. *)
Example test_string_operations :
  string_length [x68; x65; x6c; x6c; x6f; x00] = Ret 5
  /\ string_length [x00] = Ret 0.
Proof. split; reflexivity. Qed.
